(** * trailzy: the in-memory registers of [server.py]

    A shallow embedding of the four module-level stores of [server.py]
    ([USERS], [LOCATIONS], [FRIENDS], [INVITES]), of the HTTP endpoints and
    of the bot handlers that read and write them, followed by the
    properties of the state model.

    Conventions.
    - Python [int] is [Z]; [str] is [string]; [float] is the binary64
      [float] of the kernel; [Optional[T]] is [option T].
    - A [dict] is a [gmap]; [d.get(k)] is [d !! k], [d[k] = v] is
      [<[k:=v]> d].
    - The built-in [set] is kept abstract (class [PySet]): the language
      fixes which elements a set holds, not the order in which a [for]
      loop meets them.
    - The two readings of the environment, [now_ts()] and
      [secrets.token_urlsafe(8)], are arguments of the operation that
      performs them. *)

From Stdlib Require Import ZArith Sorted.
From Stdlib Require Import Floats.PrimFloat.
From stdpp Require Import gmap strings list sorting.

Local Open Scope Z_scope.

(** ** Python values *)

(** Truth value of an [Optional[int]]: [None] and [0] are falsy. This is
    what [not owner] and [bool(getattr(loc, "live_period", None))] test. *)
Definition py_bool (o : option Z) : bool :=
  match o with
  | None => false
  | Some n => negb (n =? 0)
  end.

(** [s or d] on strings: the empty string is falsy. *)
Definition str_or (s d : string) : string :=
  if decide (s = ""%string) then d else s.

(** The built-in [set] of integers: [set()], [s.add(x)] and iteration.
    Iteration never repeats an element, and after [s.add(x)] it yields [x]
    together with what it yielded before; nothing more is promised about
    the order. *)
Class PySet := {
  pyset : Type;
  set_new : pyset;
  set_add : Z → pyset → pyset;
  set_iter : pyset → list Z;
  set_iter_new : set_iter set_new = [];
  set_iter_add : ∀ x y s, y ∈ set_iter (set_add x s) ↔ y = x ∨ y ∈ set_iter s;
  set_iter_add_NoDup : ∀ x s, NoDup (set_iter s) → NoDup (set_iter (set_add x s));
}.

(** ** Stored records *)

(** A value of [USERS]: [{"id", "name", "username"}]. *)
Record Profile := {
  p_id : Z;
  p_name : string;
  p_username : option string;
}.

(** A value of [LOCATIONS]: [{"lat", "lon", "updated_at", "is_live"}]. *)
Record Loc := {
  lat : float;
  lon : float;
  updated_at : Z;
  is_live : bool;
}.

(** An element of the list returned by [api_friends_locations]. *)
Record FriendLocation := {
  r_user_id : Z;
  r_lat : float;
  r_lon : float;
  r_updated_at : Z;
  r_is_live : bool;
}.

(** The body and status of the answer of [api_accept]:
    [JSONResponse({"ok": False}, status_code=400)] or [{"ok": True}]. *)
Record AcceptResponse := {
  status_code : Z;
  ok : bool;
}.

Definition rejected : AcceptResponse := {| status_code := 400; ok := false |}.
Definition accepted : AcceptResponse := {| status_code := 200; ok := true |}.

(** ** Telegram messages, as far as the handlers read them *)

Record User := {
  user_id : Z;
  full_name : string;
  username : option string;
}.

Record Location := {
  latitude : float;
  longitude : float;
  live_period : option Z;
}.

(** [date] is the time the sender's message carries; no handler reads it. *)
Record Message := {
  from_user : option User;
  location : option Location;
  date : Z;
}.

(** The profile both [start] and [got_location] build from a sender. *)
Definition profile_of (u : User) : Profile :=
  {| p_id := user_id u;
     p_name := str_or (full_name u) "User";
     p_username := username u |}.

Section Server.
Context `{PS : PySet}.

(** ** The stores *)

Record State := {
  USERS : gmap Z Profile;
  LOCATIONS : gmap Z Loc;
  FRIENDS : gmap Z pyset;
  INVITES : gmap string Z;
}.

(** The module as loaded: four empty dictionaries. *)
Definition init : State :=
  {| USERS := ∅; LOCATIONS := ∅; FRIENDS := ∅; INVITES := ∅ |}.

Definition with_USERS (U : gmap Z Profile) (st : State) : State :=
  {| USERS := U; LOCATIONS := LOCATIONS st; FRIENDS := FRIENDS st; INVITES := INVITES st |}.
Definition with_LOCATIONS (L : gmap Z Loc) (st : State) : State :=
  {| USERS := USERS st; LOCATIONS := L; FRIENDS := FRIENDS st; INVITES := INVITES st |}.
Definition with_FRIENDS (F : gmap Z pyset) (st : State) : State :=
  {| USERS := USERS st; LOCATIONS := LOCATIONS st; FRIENDS := F; INVITES := INVITES st |}.
Definition with_INVITES (I : gmap string Z) (st : State) : State :=
  {| USERS := USERS st; LOCATIONS := LOCATIONS st; FRIENDS := FRIENDS st; INVITES := I |}.

(** [F.get(k, set())] *)
Definition get_set (F : gmap Z pyset) (k : Z) : pyset :=
  default set_new (F !! k).

(** [F.setdefault(k, set()).add(x)]: the set stored under [k] (a fresh one
    when there is none) receives [x], in place. *)
Definition setdefault_add (k x : Z) (F : gmap Z pyset) : gmap Z pyset :=
  <[k := set_add x (get_set F k)]> F.

(** [add_friend(a, b)] *)
Definition add_friend (a b : Z) (st : State) : State :=
  with_FRIENDS (setdefault_add b a (setdefault_add a b (FRIENDS st))) st.

(** ** HTTP endpoints *)

(** [GET /api/me] *)
Definition api_me (user_id : Z) (st : State) : Profile :=
  let u := default {| p_id := user_id; p_name := "Unknown"; p_username := None |}
                   (USERS st !! user_id) in
  {| p_id := user_id; p_name := p_name u; p_username := p_username u |}.

(** [GET /api/friends]: [sorted(list(FRIENDS.get(user_id, set())))] *)
Definition api_friends (user_id : Z) (st : State) : list Z :=
  merge_sort Z.le (set_iter (get_set (FRIENDS st) user_id)).

(** The [for fid in friend_ids] loop of [api_friends_locations]; [res] is
    the list built so far. *)
Fixpoint friends_locations_loop (L : gmap Z Loc) (friend_ids : list Z)
    (res : list FriendLocation) : list FriendLocation :=
  match friend_ids with
  | [] => res
  | fid :: rest =>
      match L !! fid with
      | None => friends_locations_loop L rest res
      | Some loc =>
          friends_locations_loop L rest
            (res ++ [ {| r_user_id := fid;
                         r_lat := lat loc;
                         r_lon := lon loc;
                         r_updated_at := updated_at loc;
                         r_is_live := is_live loc |} ])
      end
  end.

(** [GET /api/friends-locations] *)
Definition api_friends_locations (user_id : Z) (st : State) : list FriendLocation :=
  let friend_ids := get_set (FRIENDS st) user_id in
  friends_locations_loop (LOCATIONS st) (set_iter friend_ids) [].

(** [POST /api/invite]; [code] is the token [secrets.token_urlsafe(8)]
    returned. *)
Definition api_invite (user_id : Z) (code : string) (st : State) : State * string :=
  (with_INVITES (<[code := user_id]> (INVITES st)) st, code).

(** [POST /api/accept] *)
Definition api_accept (user_id : Z) (code : string) (st : State) : State * AcceptResponse :=
  let owner := INVITES st !! code in
  match owner with
  | Some o =>
      if negb (py_bool owner) || (o =? user_id)
      then (st, rejected)
      else (add_friend o user_id st, accepted)
  | None => (st, rejected)
  end.

(** ** Bot handlers

    A handler returns [None] when it leaves every store as it was without
    completing: [m.from_user.id] raises on a message that has no sender,
    before anything is written, and the filter [F.location] keeps
    [got_location] away from a message that has no location. *)

(** [/start] *)
Definition start (m : Message) (st : State) : option State :=
  u ← from_user m;
  Some (with_USERS (<[user_id u := profile_of u]> (USERS st)) st).

(** [USERS.setdefault(k, p)] *)
Definition setdefault_profile (k : Z) (p : Profile) (U : gmap Z Profile) : gmap Z Profile :=
  match U !! k with
  | Some _ => U
  | None => <[k := p]> U
  end.

(** The handler of a location message; [now] is the value of [now_ts()]. *)
Definition got_location (m : Message) (now : Z) (st : State) : option State :=
  loc ← location m;
  u ← from_user m;
  let st1 := with_USERS (setdefault_profile (user_id u) (profile_of u) (USERS st)) st in
  Some (with_LOCATIONS
          (<[user_id u := {| lat := latitude loc;
                             lon := longitude loc;
                             updated_at := now;
                             is_live := py_bool (live_period loc) |}]> (LOCATIONS st1))
          st1).

(** ** Runs of the server *)

(** What can change the stores: the two writing handlers and the two
    [POST] endpoints. The [GET] endpoints and the two menu handlers only
    read. *)
Inductive Op :=
| OpStart (m : Message)
| OpLocation (m : Message) (now : Z)
| OpInvite (user_id : Z) (code : string)
| OpAccept (user_id : Z) (code : string).

Definition apply_op (o : Op) (st : State) : State :=
  match o with
  | OpStart m => default st (start m st)
  | OpLocation m now => default st (got_location m now st)
  | OpInvite u code => fst (api_invite u code st)
  | OpAccept u code => fst (api_accept u code st)
  end.

Definition exec (ops : list Op) (st : State) : State :=
  foldl (λ s o, apply_op o s) st ops.

Inductive reachable : State → Prop :=
| reachable_init : reachable init
| reachable_step o st : reachable st → reachable (apply_op o st).

(** [FRIENDS.get(a, set())], as the list a loop over it yields. *)
Definition friends_of (st : State) (a : Z) : list Z :=
  set_iter (get_set (FRIENDS st) a).

End Server.

(** ** A lawful set: CPython's hash table while it is small

    CPython keeps a set of integers in an open-addressing table and a loop
    walks the table from slot 0 upwards. A fresh table has 8 slots and a
    small non-negative integer hashes to itself, so it lands in the slot
    given by its three low bits. [table_add] keeps the elements in slot
    order; it is CPython's order for up to four non-negative integers of
    pairwise distinct slots (no probing, no resizing), and a lawful order
    beyond that. *)

Definition slot (x : Z) : Z := Z.land x 7.

Fixpoint slot_insert (x : Z) (s : list Z) : list Z :=
  match s with
  | [] => [x]
  | y :: s' => if decide (slot x < slot y) then x :: y :: s' else y :: slot_insert x s'
  end.

Definition table_add (x : Z) (s : list Z) : list Z :=
  if decide (x ∈ s) then s else slot_insert x s.

Lemma elem_of_slot_insert x y s : y ∈ slot_insert x s ↔ y = x ∨ y ∈ s.
Proof.
  induction s as [|z s IH]; simpl.
  - rewrite elem_of_cons, elem_of_nil. tauto.
  - case_decide; rewrite !elem_of_cons; [|rewrite IH]; tauto.
Qed.

Lemma NoDup_slot_insert x s : x ∉ s → NoDup s → NoDup (slot_insert x s).
Proof.
  induction s as [|z s IH]; simpl; intros Hx Hs.
  - apply NoDup_singleton.
  - apply not_elem_of_cons in Hx as [Hxz Hxs].
    apply NoDup_cons in Hs as [Hz Hs].
    case_decide.
    + apply NoDup_cons. split; [|by apply NoDup_cons].
      rewrite elem_of_cons. tauto.
    + apply NoDup_cons. split; [|by apply IH].
      rewrite elem_of_slot_insert. intros [->|]; done.
Qed.

Lemma elem_of_table_add x y s : y ∈ table_add x s ↔ y = x ∨ y ∈ s.
Proof.
  unfold table_add. case_decide.
  - split; [tauto|]. by intros [->|].
  - apply elem_of_slot_insert.
Qed.

Lemma NoDup_table_add x s : NoDup s → NoDup (table_add x s).
Proof. unfold table_add. case_decide; [done|]. by apply NoDup_slot_insert. Qed.

Definition small_table : PySet :=
  {| pyset := list Z;
     set_new := [];
     set_add := table_add;
     set_iter := λ s, s;
     set_iter_new := eq_refl;
     set_iter_add := elem_of_table_add;
     set_iter_add_NoDup := NoDup_table_add |}.

(** ** Lists with distinct keys *)

Lemma filter_key_absent {A B} `{EqDecision B} (key : A → B) (l : list A) (k : B) :
  k ∉ key <$> l → filter (λ y, key y = k) l = [].
Proof.
  induction l as [|w l IH]; [done|]. simpl. intros Hk.
  apply not_elem_of_cons in Hk as [Hne Hk].
  rewrite filter_cons_False by congruence. by apply IH.
Qed.

Lemma filter_key_NoDup {A B} `{EqDecision B} (key : A → B) (l : list A) (x : A) :
  NoDup (key <$> l) → x ∈ l → filter (λ y, key y = key x) l = [x].
Proof.
  induction l as [|z l IH]; simpl; intros Hnd Hx; [by apply elem_of_nil in Hx|].
  apply NoDup_cons in Hnd as [Hz Hnd].
  apply elem_of_cons in Hx as [->|Hx].
  - rewrite filter_cons_True by done. by rewrite filter_key_absent.
  - rewrite filter_cons_False; [by apply IH|].
    intros Heq. apply Hz. rewrite Heq. by apply list_elem_of_fmap_2.
Qed.

Section Invariants.
Context `{PS : PySet}.

(** ** The friendship store under [add_friend] *)

Lemma elem_of_setdefault_add k v F x y :
  y ∈ set_iter (get_set (setdefault_add k v F) x)
  ↔ y ∈ set_iter (get_set F x) ∨ (x = k ∧ y = v).
Proof.
  unfold setdefault_add, get_set. destruct (decide (k = x)) as [->|Hne].
  - rewrite lookup_insert_eq. simpl. rewrite set_iter_add. tauto.
  - rewrite lookup_insert_ne by done. split; [tauto|]. intros [?|[? _]]; [done|congruence].
Qed.

Lemma NoDup_setdefault_add k v F :
  (∀ x, NoDup (set_iter (get_set F x))) →
  ∀ x, NoDup (set_iter (get_set (setdefault_add k v F) x)).
Proof.
  intros HF x. unfold setdefault_add, get_set. destruct (decide (k = x)) as [->|Hne].
  - rewrite lookup_insert_eq. simpl. apply set_iter_add_NoDup, HF.
  - rewrite lookup_insert_ne by done. apply HF.
Qed.

Lemma elem_of_friends_add_friend a b st x y :
  y ∈ friends_of (add_friend a b st) x
  ↔ y ∈ friends_of st x ∨ (x = a ∧ y = b) ∨ (x = b ∧ y = a).
Proof.
  unfold friends_of, add_friend. simpl.
  rewrite !elem_of_setdefault_add. tauto.
Qed.

Lemma NoDup_friends_add_friend a b st :
  (∀ x, NoDup (friends_of st x)) → ∀ x, NoDup (friends_of (add_friend a b st) x).
Proof.
  intros H x. unfold friends_of, add_friend. simpl.
  by do 2 apply NoDup_setdefault_add.
Qed.

(** ** What each operation does to each store *)

(** [api_accept] has two outcomes, and the rejecting one writes nothing. *)
Lemma api_accept_cases user_id code st :
  (api_accept user_id code st = (st, rejected)
   ∧ (INVITES st !! code = None ∨ INVITES st !! code = Some 0
      ∨ INVITES st !! code = Some user_id))
  ∨ (∃ owner, INVITES st !! code = Some owner ∧ owner ≠ 0 ∧ owner ≠ user_id
      ∧ api_accept user_id code st = (add_friend owner user_id st, accepted)).
Proof.
  unfold api_accept. destruct (INVITES st !! code) as [o|] eqn:Hc; [|by left; auto].
  simpl. destruct (Z.eqb_spec o 0) as [->|H0]; simpl; [by left; auto|].
  destruct (Z.eqb_spec o user_id) as [->|Hu]; [by left; auto|].
  right. by exists o.
Qed.

(** Only a successful [api_accept] writes [FRIENDS], and what it adds is an
    edge between two different users. *)
Lemma apply_op_FRIENDS o st :
  FRIENDS (apply_op o st) = FRIENDS st
  ∨ ∃ a b, a ≠ b ∧ apply_op o st = add_friend a b st.
Proof.
  destruct o as [m|m now|u code|u code]; simpl.
  - unfold start. destruct (from_user m); simpl; auto.
  - unfold got_location. destruct (location m), (from_user m); simpl; auto.
  - auto.
  - destruct (api_accept_cases u code st) as [[-> _]|(owner & _ & _ & Hne & ->)]; simpl; [auto|].
    right. by exists owner, u.
Qed.

Lemma reachable_exec ops st : reachable st → reachable (exec ops st).
Proof.
  revert st. induction ops as [|o ops IH]; simpl; intros st H; [done|].
  apply IH. by constructor.
Qed.

(** ** Invariants of the friendship store *)

Definition symmetric (st : State) : Prop :=
  ∀ a b, b ∈ friends_of st a ↔ a ∈ friends_of st b.

Definition irreflexive (st : State) : Prop :=
  ∀ u, u ∉ friends_of st u.

Lemma friends_of_init a : friends_of init a = [].
Proof. unfold friends_of, get_set. simpl. rewrite lookup_empty. apply set_iter_new. Qed.

Lemma friends_of_ext st st' : FRIENDS st' = FRIENDS st → friends_of st' = friends_of st.
Proof. unfold friends_of. by intros ->. Qed.

Lemma symmetric_step o st : symmetric st → symmetric (apply_op o st).
Proof.
  intros Hs a b. destruct (apply_op_FRIENDS o st) as [HF|(x & y & _ & ->)].
  - rewrite (friends_of_ext _ _ HF). apply Hs.
  - rewrite !elem_of_friends_add_friend, (Hs a b). tauto.
Qed.

Lemma irreflexive_step o st : irreflexive st → irreflexive (apply_op o st).
Proof.
  intros Hi u. destruct (apply_op_FRIENDS o st) as [HF|(x & y & Hne & ->)].
  - rewrite (friends_of_ext _ _ HF). apply Hi.
  - rewrite elem_of_friends_add_friend. specialize (Hi u).
    intros [?|[[-> ->]|[-> ->]]]; done.
Qed.

Lemma NoDup_friends_step o st :
  (∀ x, NoDup (friends_of st x)) → ∀ x, NoDup (friends_of (apply_op o st) x).
Proof.
  intros Hn x. destruct (apply_op_FRIENDS o st) as [HF|(a & b & _ & ->)].
  - rewrite (friends_of_ext _ _ HF). apply Hn.
  - by apply NoDup_friends_add_friend.
Qed.

Lemma reachable_NoDup_friends st : reachable st → ∀ x, NoDup (friends_of st x).
Proof.
  induction 1 as [|o st _ IH].
  - intros x. rewrite friends_of_init. constructor.
  - by apply NoDup_friends_step.
Qed.

End Invariants.

(** ** Properties of the state model *)

Section Claims.
Context `{PS : PySet}.

(** *** The invite ledger *)

(** C1. The claim reads: [api_accept] rejects exactly when the code is
    unknown or its owner is the requester, and accepts every stored code
    whose owner differs from the requester. The handler tests [not owner],
    which is also true of the owner [0]: after user 0 mints the code ["c"],
    the code is stored, its owner 0 differs from the requester 1, and the
    call is rejected all the same, without any write. *)
Theorem api_accept_rejects_invite_of_user_0 :
  let st := fst (api_invite 0 "c" init) in
  INVITES st !! "c"%string = Some 0
  ∧ 0 ≠ 1
  ∧ api_accept 1 "c" st = (st, rejected).
Proof.
  simpl. unfold api_accept. simpl. rewrite lookup_insert_eq. done.
Qed.

(** C5. A successful [api_accept] leaves the ledger as it was: the code
    still maps to the same owner, and the same code is accepted again from
    any requester other than the owner. *)
Theorem accept_leaves_invite_valid st code r :
  ok (snd (api_accept r code st)) = true →
  let st1 := fst (api_accept r code st) in
  INVITES st1 = INVITES st
  ∧ ∃ owner, INVITES st !! code = Some owner
      ∧ INVITES st1 !! code = Some owner
      ∧ ∀ r', r' ≠ owner → snd (api_accept r' code st1) = accepted.
Proof.
  intros Hok. simpl.
  destruct (api_accept_cases r code st) as [[Hrej _]|(owner & Hc & H0 & Hne & Hacc)].
  { rewrite Hrej in Hok. discriminate. }
  rewrite Hacc. simpl. split; [done|]. exists owner. split; [done|]. split; [done|].
  intros r' Hr'.
  destruct (api_accept_cases r' code (add_friend owner r st))
    as [[_ Hrej]|(owner' & Hc' & _ & _ & ->)]; [|done].
  simpl in Hrej. rewrite Hc in Hrej.
  destruct Hrej as [?|[?|?]]; congruence.
Qed.

(** C6. A rejected [api_accept] writes to no store; and a user who accepts
    the code they have just minted is rejected (status 400), [FRIENDS]
    being what it was before the code was minted. *)
Theorem rejected_accept_writes_nothing st u code :
  (ok (snd (api_accept u code st)) = false → fst (api_accept u code st) = st)
  ∧ (let st1 := fst (api_invite u code st) in
     api_accept u code st1 = (st1, rejected)
     ∧ status_code (snd (api_accept u code st1)) = 400
     ∧ FRIENDS (fst (api_accept u code st1)) = FRIENDS st).
Proof.
  split.
  - intros Hok.
    destruct (api_accept_cases u code st) as [[-> _]|(owner & _ & _ & _ & Hacc)]; [done|].
    rewrite Hacc in Hok. discriminate.
  - cbv zeta.
    destruct (api_accept_cases u code (fst (api_invite u code st)))
      as [[-> _]|(owner & Hc & _ & Hne & _)]; [done|].
    simpl in Hc. rewrite lookup_insert_eq in Hc. congruence.
Qed.

(** *** The friendship graph *)

(** C2. In every state the server can reach, [b] is among the friends of
    [a] exactly when [a] is among the friends of [b]. *)
Theorem friendship_symmetric st :
  reachable st → ∀ a b, b ∈ friends_of st a ↔ a ∈ friends_of st b.
Proof.
  induction 1 as [|o st _ IH].
  - intros a b. rewrite !friends_of_init, !elem_of_nil. tauto.
  - by apply symmetric_step.
Qed.

(** C9. In every state the server can reach, nobody is their own friend. *)
Theorem no_self_friendship st :
  reachable st → ∀ u, u ∉ friends_of st u.
Proof.
  induction 1 as [|o st _ IH].
  - intros u. rewrite friends_of_init. apply not_elem_of_nil.
  - by apply irreflexive_step.
Qed.

End Claims.

Section Registers.
Context `{PS : PySet}.

(** *** The identity and position registers *)

(** The position [got_location] stores for a location received at [now]. *)
Definition stored_loc (loc : Location) (now : Z) : Loc :=
  {| lat := latitude loc;
     lon := longitude loc;
     updated_at := now;
     is_live := py_bool (live_period loc) |}.

(** The record [api_friends_locations] appends for a friend. *)
Definition friend_record (fid : Z) (loc : Loc) : FriendLocation :=
  {| r_user_id := fid;
     r_lat := lat loc;
     r_lon := lon loc;
     r_updated_at := updated_at loc;
     r_is_live := is_live loc |}.

Lemma got_location_Some m now st u loc :
  from_user m = Some u → location m = Some loc →
  got_location m now st =
    Some {| USERS := setdefault_profile (user_id u) (profile_of u) (USERS st);
            LOCATIONS := <[user_id u := stored_loc loc now]> (LOCATIONS st);
            FRIENDS := FRIENDS st;
            INVITES := INVITES st |}.
Proof. intros Hu Hl. unfold got_location. by rewrite Hl, Hu. Qed.

Lemma setdefault_profile_lookup k p U v :
  setdefault_profile k p U !! v =
    if decide (k = v) then Some (default p (U !! k)) else U !! v.
Proof.
  unfold setdefault_profile. destruct (U !! k) as [q|] eqn:Hk.
  - case_decide as Hkv; [|done]. by rewrite <- Hkv.
  - rewrite lookup_insert. by case_decide.
Qed.

(** Every stored profile carries the identifier it is stored under. *)
Definition profile_ids_ok (st : State) : Prop :=
  ∀ u p, USERS st !! u = Some p → p_id p = u.

Lemma profile_ids_ok_step o st : profile_ids_ok st → profile_ids_ok (apply_op o st).
Proof.
  intros Hst. destruct o as [m|m now|u code|u code]; simpl.
  - unfold start. destruct (from_user m) as [usr|]; simpl; [|done].
    intros v p. simpl. rewrite lookup_insert. case_decide as Hv.
    + intros [= <-]. by rewrite <- Hv.
    + apply Hst.
  - unfold got_location. destruct (location m) as [loc|]; simpl; [|done].
    destruct (from_user m) as [usr|]; simpl; [|done].
    intros v p. simpl. rewrite setdefault_profile_lookup. case_decide as Hv.
    + destruct (USERS st !! user_id usr) as [q|] eqn:Hq; simpl; intros [= <-].
      * rewrite <- Hv. by apply Hst.
      * by rewrite <- Hv.
    + apply Hst.
  - done.
  - by destruct (api_accept_cases u code st) as [[-> _]|(owner & _ & _ & _ & ->)].
Qed.

Lemma reachable_profile_ids_ok st : reachable st → profile_ids_ok st.
Proof.
  induction 1 as [|o st _ IH].
  - intros u p. simpl. by rewrite lookup_empty.
  - by apply profile_ids_ok_step.
Qed.

(** C8. [api_me] answers for every identifier: with the stored name and
    handle when a profile is stored, and with the name ["Unknown"] and no
    handle otherwise; in a state the server can reach the answer for a
    stored profile is that profile. *)
Theorem api_me_total st u :
  api_me u st =
    match USERS st !! u with
    | Some p => {| p_id := u; p_name := p_name p; p_username := p_username p |}
    | None => {| p_id := u; p_name := "Unknown"; p_username := None |}
    end
  ∧ (reachable st → ∀ p, USERS st !! u = Some p → api_me u st = p).
Proof.
  split.
  - unfold api_me. by destruct (USERS st !! u).
  - intros Hr p Hp. unfold api_me. rewrite Hp. simpl.
    rewrite <- (reachable_profile_ids_ok st Hr u p Hp). by destruct p.
Qed.

(** C10. A location report from [u] stores a profile for [u] only when
    [USERS] has none; when it has one, [USERS] is left as it was. Besides
    that the report writes the entry of [u] in [LOCATIONS] and nothing
    else: the entries of every other user, [FRIENDS] and [INVITES] are
    what they were. *)
Theorem got_location_frame m now st u loc :
  from_user m = Some u → location m = Some loc →
  ∃ st', got_location m now st = Some st'
    ∧ (USERS st !! user_id u = None →
         USERS st' = <[user_id u := profile_of u]> (USERS st))
    ∧ (is_Some (USERS st !! user_id u) → USERS st' = USERS st)
    ∧ LOCATIONS st' = <[user_id u := stored_loc loc now]> (LOCATIONS st)
    ∧ (∀ v, v ≠ user_id u →
         USERS st' !! v = USERS st !! v ∧ LOCATIONS st' !! v = LOCATIONS st !! v)
    ∧ FRIENDS st' = FRIENDS st
    ∧ INVITES st' = INVITES st.
Proof.
  intros Hu Hl. eexists. split; [by apply got_location_Some|]. simpl.
  repeat split.
  - intros Hnone. unfold setdefault_profile. by rewrite Hnone.
  - intros [p Hp]. unfold setdefault_profile. by rewrite Hp.
  - rewrite setdefault_profile_lookup. by case_decide.
  - by rewrite lookup_insert_ne.
Qed.

(** C7, as the code has it. Let [u] report a position at clock reading
    [t1] and, after any further operations, report again at reading [t2].
    Then [LOCATIONS] holds for [u] the coordinates and liveness of the
    second report, stamped [t2]: the clock read on receipt, whatever [date]
    the message carries. The handler never compares stamps, so the new
    stamp is not before the stamp of the first report exactly when the
    clock was not behind at the second receipt. [u] has exactly that one
    entry in [LOCATIONS]. *)
Theorem last_report_wins_at_receipt_time st ops m1 m2 t1 t2 u1 u2 l1 l2 :
  from_user m1 = Some u1 → location m1 = Some l1 →
  from_user m2 = Some u2 → location m2 = Some l2 →
  user_id u1 = user_id u2 →
  let u := user_id u1 in
  let st1 := apply_op (OpLocation m1 t1) st in
  let st2 := apply_op (OpLocation m2 t2) (exec ops st1) in
  LOCATIONS st1 !! u = Some (stored_loc l1 t1)
  ∧ LOCATIONS st2 !! u = Some (stored_loc l2 t2)
  ∧ (∀ p1 p2, LOCATIONS st1 !! u = Some p1 → LOCATIONS st2 !! u = Some p2 →
       updated_at p2 = t2 ∧ (updated_at p1 ≤ updated_at p2 ↔ t1 ≤ t2))
  ∧ filter (λ kv, kv.1 = u) (map_to_list (LOCATIONS st2)) = [(u, stored_loc l2 t2)].
Proof.
  intros Hu1 Hl1 Hu2 Hl2 Hid. cbv zeta.
  assert (H1 : LOCATIONS (apply_op (OpLocation m1 t1) st) !! user_id u1
               = Some (stored_loc l1 t1)).
  { simpl. rewrite (got_location_Some _ _ _ _ _ Hu1 Hl1). simpl.
    apply lookup_insert_eq. }
  set (st1 := apply_op (OpLocation m1 t1) st) in *.
  assert (H2 : LOCATIONS (apply_op (OpLocation m2 t2) (exec ops st1)) !! user_id u1
               = Some (stored_loc l2 t2)).
  { simpl. rewrite (got_location_Some _ _ _ _ _ Hu2 Hl2). simpl.
    rewrite Hid. apply lookup_insert_eq. }
  set (st2 := apply_op (OpLocation m2 t2) (exec ops st1)) in *.
  split; [done|]. split; [done|]. split.
  - intros p1 p2. rewrite H1, H2. intros [= <-] [= <-]. simpl. tauto.
  - apply (filter_key_NoDup fst (map_to_list (LOCATIONS st2))
             (user_id u1, stored_loc l2 t2)).
    + apply NoDup_fst_map_to_list.
    + by apply elem_of_map_to_list.
Qed.

End Registers.

Section Query.
Context `{PS : PySet}.

(** *** The friends' positions query *)

(** The loop appends, in iteration order, one record for each identifier
    that has a stored position. *)
Lemma friends_locations_loop_omap (L : gmap Z Loc) ids res :
  friends_locations_loop L ids res
  = res ++ omap (λ fid, friend_record fid <$> L !! fid) ids.
Proof.
  revert res. induction ids as [|fid ids IH]; intros res; simpl.
  - by rewrite app_nil_r.
  - destruct (L !! fid) as [loc|]; simpl; [|apply IH].
    rewrite IH, <- app_assoc. done.
Qed.

Lemma api_friends_locations_omap u st :
  api_friends_locations u st
  = omap (λ fid, friend_record fid <$> LOCATIONS st !! fid) (friends_of st u).
Proof. unfold api_friends_locations. by rewrite friends_locations_loop_omap. Qed.

Lemma elem_of_api_friends_locations u st r :
  r ∈ api_friends_locations u st
  ↔ ∃ fid loc, fid ∈ friends_of st u ∧ LOCATIONS st !! fid = Some loc
      ∧ r = friend_record fid loc.
Proof.
  rewrite api_friends_locations_omap, list_elem_of_omap. split.
  - intros (fid & Hin & Hf). destruct (LOCATIONS st !! fid) as [loc|] eqn:Hl; [|done].
    simpl in Hf. injection Hf as <-. by exists fid, loc.
  - intros (fid & loc & Hin & Hl & ->). exists fid. by rewrite Hl.
Qed.

Lemma NoDup_omap_friend_record (L : gmap Z Loc) ids :
  NoDup ids → NoDup (r_user_id <$> omap (λ fid, friend_record fid <$> L !! fid) ids).
Proof.
  induction 1 as [|fid ids Hfid _ IH]; simpl; [constructor|].
  destruct (L !! fid) as [loc|]; simpl; [|done].
  constructor; [|done].
  rewrite list_elem_of_fmap. intros (r & Hr & Hin).
  apply list_elem_of_omap in Hin as (fid' & Hin & Hf).
  destruct (L !! fid') as [loc'|]; [|done]. simpl in Hf. injection Hf as <-.
  simpl in Hr. by subst fid'.
Qed.

(** C4. In a state the server can reach, the answer of
    [api_friends_locations] for [u] holds, for each friend of [u] with a
    stored position, exactly one record under that friend's identifier,
    carrying the stored [lat], [lon], [updated_at] and [is_live]; every
    record of the answer is such a record; and no record is filed under an
    identifier that has no stored position. *)
Theorem friends_locations_exact st u :
  reachable st →
  let res := api_friends_locations u st in
  (∀ f loc, f ∈ friends_of st u → LOCATIONS st !! f = Some loc →
     filter (λ r, r_user_id r = f) res = [friend_record f loc])
  ∧ (∀ r, r ∈ res →
       r_user_id r ∈ friends_of st u
       ∧ ∃ loc, LOCATIONS st !! r_user_id r = Some loc
           ∧ r = friend_record (r_user_id r) loc)
  ∧ (∀ f, LOCATIONS st !! f = None → filter (λ r, r_user_id r = f) res = []).
Proof.
  intros Hr. cbv zeta. split; [|split].
  - intros f loc Hf Hl.
    apply (filter_key_NoDup r_user_id (api_friends_locations u st) (friend_record f loc)).
    + rewrite api_friends_locations_omap.
      apply NoDup_omap_friend_record. by apply reachable_NoDup_friends.
    + apply elem_of_api_friends_locations. by exists f, loc.
  - intros r Hin. apply elem_of_api_friends_locations in Hin as (fid & loc & Hf & Hl & ->).
    simpl. split; [done|]. by exists loc.
  - intros f Hnone. apply filter_key_absent.
    rewrite list_elem_of_fmap. intros (r & -> & Hin).
    apply elem_of_api_friends_locations in Hin as (fid & loc & _ & Hl & ->).
    simpl in Hnone. congruence.
Qed.

(** [api_friends], the sibling endpoint, does sort what it returns. *)
Lemma api_friends_sorted u st : Sorted Z.le (api_friends u st).
Proof. unfold api_friends. apply Sorted_merge_sort. intros x y. lia. Qed.

End Query.

(** ** Concrete runs

    The runs below are evaluated with [small_table] as the set. *)

Definition sender (uid : Z) : User :=
  {| user_id := uid; full_name := "Ann"; username := None |}.

(** A location message from [uid]; its own [date] is 0. *)
Definition report (uid : Z) (la lo : float) (live : option Z) : Message :=
  {| from_user := Some (sender uid);
     location := Some {| latitude := la; longitude := lo; live_period := live |};
     date := 0 |}.

(** User 100 mints ["XYZ"]; users 1 and 8 accept it, then each reports a
    position. *)
Definition two_friends : list Op :=
  [OpInvite 100 "XYZ"; OpAccept 1 "XYZ"; OpAccept 8 "XYZ";
   OpLocation (report 1 10 20 (Some 60)) 1000;
   OpLocation (report 8 30 40 None) 1001].

Definition st_two_friends : State (PS := small_table) :=
  exec two_friends init.

Lemma reachable_two_friends : reachable st_two_friends.
Proof. apply reachable_exec. constructor. Qed.

(** C3. The claim reads: the answer of [api_friends_locations] is sorted
    by friend identifier. The handler appends in the iteration order of
    the set and never sorts: after [two_friends], friends 1 and 8 of user
    100 come out as 8, 1, while [api_friends] returns 1, 8 for the same
    user in the same state. *)
Theorem friends_locations_not_sorted :
  r_user_id <$> api_friends_locations 100 st_two_friends = [8; 1]
  ∧ ¬ Sorted Z.le (r_user_id <$> api_friends_locations 100 st_two_friends)
  ∧ api_friends 100 st_two_friends = [1; 8].
Proof.
  assert (H : r_user_id <$> api_friends_locations 100 st_two_friends = [8; 1])
    by (vm_compute; reflexivity).
  split; [done|]. split; [|vm_compute; reflexivity].
  rewrite H. intros Hs. apply Sorted_inv in Hs as [_ Hd].
  apply HdRel_inv in Hd. lia.
Qed.

Lemma friendship_symmetric_witness :
  reachable st_two_friends
  ∧ (8 ∈ friends_of st_two_friends 100 ↔ 100 ∈ friends_of st_two_friends 8).
Proof.
  split; [exact reachable_two_friends|].
  exact (friendship_symmetric st_two_friends reachable_two_friends 100 8).
Defined.

Lemma no_self_friendship_witness :
  reachable st_two_friends ∧ 100 ∉ friends_of st_two_friends 100.
Proof.
  split; [exact reachable_two_friends|].
  exact (no_self_friendship st_two_friends reachable_two_friends 100).
Defined.

Lemma friends_locations_exact_witness :
  filter (λ r, r_user_id r = 8) (api_friends_locations 100 st_two_friends)
  = [ {| r_user_id := 8; r_lat := 30; r_lon := 40;
         r_updated_at := 1001; r_is_live := false |} ].
Proof.
  refine (proj1 (friends_locations_exact st_two_friends 100 reachable_two_friends)
            8 {| lat := 30; lon := 40; updated_at := 1001; is_live := false |} _ _).
  - vm_compute. apply list_elem_of_here.
  - vm_compute. reflexivity.
Defined.

Lemma accept_leaves_invite_valid_witness :
  let st := fst (api_invite (PS := small_table) 100 "XYZ" init) in
  let st1 := fst (api_accept 200 "XYZ" st) in
  INVITES st1 = INVITES st
  ∧ ∃ owner, INVITES st !! "XYZ"%string = Some owner
      ∧ INVITES st1 !! "XYZ"%string = Some owner
      ∧ ∀ r', r' ≠ owner → snd (api_accept r' "XYZ" st1) = accepted.
Proof.
  refine (accept_leaves_invite_valid
            (fst (api_invite (PS := small_table) 100 "XYZ" init)) "XYZ" 200 _).
  vm_compute. reflexivity.
Defined.

Lemma rejected_accept_writes_nothing_witness :
  fst (api_accept (PS := small_table) 5 "nonexistent" init) = init
  ∧ api_accept 5 "XYZ" (fst (api_invite 5 "XYZ" init))
    = (fst (api_invite (PS := small_table) 5 "XYZ" init), rejected).
Proof.
  split.
  - refine (proj1 (rejected_accept_writes_nothing init 5 "nonexistent") _).
    vm_compute. reflexivity.
  - exact (proj1 (proj2 (rejected_accept_writes_nothing init 5 "XYZ"))).
Defined.

(** C7, as the claim states it, fails: the second report of user 7 is
    received at clock reading 900, after the first was stamped 1000, and
    the stored stamp goes down from 1000 to 900. *)
Lemma later_report_with_earlier_stamp :
  let st1 := apply_op (PS := small_table) (OpLocation (report 7 1 1 None) 1000) init in
  let st2 := apply_op (OpLocation (report 7 2 2 (Some 60)) 900) st1 in
  ∃ p1 p2, LOCATIONS st1 !! 7 = Some p1
    ∧ LOCATIONS st2 !! 7 = Some p2
    ∧ ¬ (updated_at p1 ≤ updated_at p2).
Proof.
  cbv zeta.
  exists {| lat := 1; lon := 1; updated_at := 1000; is_live := false |},
         {| lat := 2; lon := 2; updated_at := 900; is_live := true |}.
  split; [vm_compute; reflexivity|]. split; [vm_compute; reflexivity|].
  simpl. lia.
Qed.

Lemma last_report_wins_at_receipt_time_witness :
  LOCATIONS (exec (PS := small_table)
               [OpLocation (report 7 1 1 None) 1000;
                OpInvite 7 "abc";
                OpLocation (report 7 2 2 (Some 60)) 900] init) !! 7
  = Some {| lat := 2; lon := 2; updated_at := 900; is_live := true |}.
Proof.
  exact (proj1 (proj2 (last_report_wins_at_receipt_time (PS := small_table) init
            [OpInvite 7 "abc"]
            (report 7 1 1 None) (report 7 2 2 (Some 60)) 1000 900
            (sender 7) (sender 7)
            {| latitude := 1; longitude := 1; live_period := None |}
            {| latitude := 2; longitude := 2; live_period := Some 60 |}
            eq_refl eq_refl eq_refl eq_refl eq_refl))).
Defined.

Lemma api_me_total_witness :
  api_me 8 st_two_friends = {| p_id := 8; p_name := "Ann"; p_username := None |}
  ∧ api_me 300 st_two_friends
    = {| p_id := 300; p_name := "Unknown"; p_username := None |}.
Proof.
  split.
  - refine (proj2 (api_me_total st_two_friends 8) reachable_two_friends _ _).
    vm_compute. reflexivity.
  - refine (eq_trans (proj1 (api_me_total st_two_friends 300)) _).
    vm_compute. reflexivity.
Defined.

Lemma got_location_frame_witness :
  ∃ st', got_location (report 8 50 60 None) 2000 st_two_friends = Some st'
    ∧ USERS st' = USERS st_two_friends
    ∧ LOCATIONS st' !! 1 = LOCATIONS st_two_friends !! 1
    ∧ FRIENDS st' = FRIENDS st_two_friends
    ∧ INVITES st' = INVITES st_two_friends.
Proof.
  destruct (got_location_frame (report 8 50 60 None) 2000 st_two_friends (sender 8)
              {| latitude := 50; longitude := 60; live_period := None |}
              eq_refl eq_refl)
    as (st' & Hg & _ & Hsome & _ & Hother & HF & HI).
  exists st'. split; [exact Hg|]. split.
  - apply Hsome. eexists. vm_compute. reflexivity.
  - split; [|by split]. apply (Hother 1). discriminate.
Defined.

(** ** Further properties of the handlers *)

(** *** Sorted lists of identifiers *)

Lemma merge_sort_Permutation_eq (l1 l2 : list Z) :
  l1 ≡ₚ l2 → merge_sort Z.le l1 = merge_sort Z.le l2.
Proof.
  intros Hp. apply (StronglySorted_unique Z.le).
  - apply StronglySorted_merge_sort; apply _.
  - apply StronglySorted_merge_sort; apply _.
  - by rewrite !merge_sort_Permutation.
Qed.

Lemma StronglySorted_le_filter (P : Z → Prop) `{∀ x, Decision (P x)} (l : list Z) :
  StronglySorted Z.le l → StronglySorted Z.le (filter P l).
Proof.
  induction 1 as [|x l Hl IH Hx]; [constructor|].
  rewrite filter_cons. case_decide; [|done].
  constructor; [done|]. apply Forall_forall. intros y Hy.
  apply list_elem_of_filter in Hy as [_ Hy].
  by apply (proj1 (Forall_forall _ _) Hx).
Qed.

Lemma StronglySorted_le_NoDup_lt (l : list Z) :
  StronglySorted Z.le l → NoDup l → StronglySorted Z.lt l.
Proof.
  induction 1 as [|x l Hl IH Hx]; intros Hnd; [constructor|].
  apply NoDup_cons in Hnd as [Hxl Hnd].
  constructor; [by apply IH|]. apply Forall_forall. intros y Hy.
  pose proof (proj1 (Forall_forall _ _) Hx y Hy) as Hle.
  assert (x ≠ y) by (intros ->; done). lia.
Qed.

Lemma NoDup_only_elem (l : list Z) (r : Z) :
  NoDup l → (∀ y, y ∈ l ↔ y = r) → l = [r].
Proof.
  intros Hnd Hl. destruct l as [|x l].
  - exfalso. apply (not_elem_of_nil r). by apply Hl.
  - apply NoDup_cons in Hnd as [Hx _].
    assert (x = r) as -> by (apply Hl; left).
    destruct l as [|y l]; [done|].
    exfalso. apply Hx. assert (y = r) as -> by (apply Hl; right; left). left.
Qed.

Section Handlers.
Context `{PS : PySet}.

Lemma exec_snoc ops o st : exec (ops ++ [o]) st = apply_op o (exec ops st).
Proof. unfold exec. by rewrite foldl_snoc. Qed.

Lemma NoDup_setdefault_add_at k v F x :
  NoDup (set_iter (get_set F x)) → NoDup (set_iter (get_set (setdefault_add k v F) x)).
Proof.
  intros HF. unfold setdefault_add, get_set in *. destruct (decide (k = x)) as [->|Hne].
  - rewrite lookup_insert_eq. simpl. by apply set_iter_add_NoDup.
  - by rewrite lookup_insert_ne.
Qed.

Lemma NoDup_friends_add_friend_at a b st x :
  NoDup (friends_of st x) → NoDup (friends_of (add_friend a b st) x).
Proof.
  intros H. unfold friends_of, add_friend. simpl.
  by do 2 apply NoDup_setdefault_add_at.
Qed.

(** *** Accepting an invite *)

(** X1. A stored code whose owner is neither 0 nor the requester is
    accepted: afterwards owner and requester are each other's friends, the
    friend lists hold what they held plus that one edge, and [USERS],
    [LOCATIONS] and [INVITES] are untouched. Neither user needs a
    profile. *)
Theorem accept_makes_friends st code r owner :
  INVITES st !! code = Some owner → owner ≠ 0 → owner ≠ r →
  let st' := fst (api_accept r code st) in
  snd (api_accept r code st) = accepted
  ∧ r ∈ friends_of st' owner
  ∧ owner ∈ friends_of st' r
  ∧ (∀ a b, b ∈ friends_of st' a
            ↔ b ∈ friends_of st a ∨ (a = owner ∧ b = r) ∨ (a = r ∧ b = owner))
  ∧ USERS st' = USERS st ∧ LOCATIONS st' = LOCATIONS st ∧ INVITES st' = INVITES st.
Proof.
  intros Hc H0 Hne. cbv zeta.
  destruct (api_accept_cases r code st) as [[_ Hrej]|(o & Hc' & _ & _ & ->)].
  { rewrite Hc in Hrej. destruct Hrej as [?|[?|?]]; congruence. }
  assert (o = owner) as -> by congruence. simpl.
  split; [done|]. rewrite !elem_of_friends_add_friend.
  split; [tauto|]. split; [tauto|]. split; [|done].
  intros a b. apply elem_of_friends_add_friend.
Qed.

(** X2. Redeeming the same code a second time is accepted again and
    changes no answer of [api_friends]. *)
Theorem accept_twice_same_friends st code r u :
  reachable st →
  ok (snd (api_accept r code st)) = true →
  let st1 := fst (api_accept r code st) in
  let st2 := fst (api_accept r code st1) in
  snd (api_accept r code st1) = accepted
  ∧ api_friends u st2 = api_friends u st1.
Proof.
  intros Hr Hok. cbv zeta.
  assert (Hr1 : reachable (fst (api_accept r code st)))
    by apply (reachable_step (OpAccept r code) st Hr).
  assert (Hr2 : reachable (fst (api_accept r code (fst (api_accept r code st)))))
    by apply (reachable_step (OpAccept r code) _ Hr1).
  destruct (api_accept_cases r code st) as [[Hrej _]|(owner & Hc & H0 & Hne & Hacc)].
  { rewrite Hrej in Hok. discriminate. }
  rewrite Hacc in *. simpl in *.
  destruct (api_accept_cases r code (add_friend owner r st))
    as [[_ Hrej]|(owner' & Hc' & _ & _ & Hacc')].
  { simpl in Hrej. rewrite Hc in Hrej. destruct Hrej as [?|[?|?]]; congruence. }
  simpl in Hc'. assert (owner' = owner) as -> by congruence.
  rewrite Hacc' in *. simpl in *. split; [done|].
  unfold api_friends. apply merge_sort_Permutation_eq.
  apply NoDup_Permutation.
  - apply (reachable_NoDup_friends _ Hr2).
  - apply (reachable_NoDup_friends _ Hr1).
  - intros x. change (x ∈ friends_of (add_friend owner r (add_friend owner r st)) u
                      ↔ x ∈ friends_of (add_friend owner r st) u).
    rewrite !elem_of_friends_add_friend. tauto.
Qed.

(** *** The friends endpoint *)

(** X3. In a state the server can reach, [api_friends] returns the
    friends of the user, each once, in strictly increasing order. *)
Theorem api_friends_strictly_sorted st u :
  reachable st →
  StronglySorted Z.lt (api_friends u st)
  ∧ ∀ x, x ∈ api_friends u st ↔ x ∈ friends_of st u.
Proof.
  intros Hr. unfold api_friends. split.
  - apply StronglySorted_le_NoDup_lt.
    + apply StronglySorted_merge_sort; apply _.
    + rewrite merge_sort_Permutation. apply (reachable_NoDup_friends _ Hr).
  - intros x. by rewrite merge_sort_Permutation.
Qed.

(** X4. For a user who has no entry in [FRIENDS], both friend endpoints
    answer with the empty list. *)
Theorem no_friends_empty_answers st u :
  FRIENDS st !! u = None →
  api_friends u st = [] ∧ api_friends_locations u st = [].
Proof.
  intros Hn. unfold api_friends, api_friends_locations, get_set.
  rewrite Hn. simpl. rewrite set_iter_new. done.
Qed.

End Handlers.

Section Runs.
Context `{PS : PySet}.

(** *** What no operation does *)

Lemma apply_op_keeps o st :
  (∀ u, is_Some (USERS st !! u) → is_Some (USERS (apply_op o st) !! u))
  ∧ (∀ u, is_Some (LOCATIONS st !! u) → is_Some (LOCATIONS (apply_op o st) !! u))
  ∧ (∀ c, is_Some (INVITES st !! c) → is_Some (INVITES (apply_op o st) !! c))
  ∧ (∀ a b, b ∈ friends_of st a → b ∈ friends_of (apply_op o st) a).
Proof.
  destruct o as [m|m now|u code|u code]; simpl.
  - unfold start. destruct (from_user m) as [usr|]; simpl; [|done].
    repeat split; try done. intros v Hv. simpl.
    rewrite lookup_insert. by case_decide.
  - unfold got_location. destruct (location m) as [loc|]; simpl; [|done].
    destruct (from_user m) as [usr|]; simpl; [|done].
    repeat split; try done; intros v Hv; simpl.
    + rewrite setdefault_profile_lookup. by case_decide.
    + rewrite lookup_insert. by case_decide.
  - repeat split; try done. intros c Hc. simpl.
    rewrite lookup_insert. by case_decide.
  - destruct (api_accept_cases u code st) as [[-> _]|(owner & _ & _ & _ & ->)]; [done|].
    simpl. repeat split; try done.
    intros a b Hb. apply elem_of_friends_add_friend. by left.
Qed.

(** X5. No run of the server deletes anything: a user with a profile
    keeps one, a user with a position keeps one, a minted code stays in
    the ledger, and a friend stays a friend. *)
Theorem nothing_is_deleted ops st :
  (∀ u, is_Some (USERS st !! u) → is_Some (USERS (exec ops st) !! u))
  ∧ (∀ u, is_Some (LOCATIONS st !! u) → is_Some (LOCATIONS (exec ops st) !! u))
  ∧ (∀ c, is_Some (INVITES st !! c) → is_Some (INVITES (exec ops st) !! c))
  ∧ (∀ a b, b ∈ friends_of st a → b ∈ friends_of (exec ops st) a).
Proof.
  revert st. induction ops as [|o ops IH]; intros st; [done|].
  change (exec (o :: ops) st) with (exec ops (apply_op o st)).
  destruct (apply_op_keeps o st) as (HU & HL & HI & HF).
  destruct (IH (apply_op o st)) as (HU' & HL' & HI' & HF').
  repeat split; eauto.
Qed.

(** *** Invite, accept, report, query *)

(** X6. A code minted by [u] (not 0) is accepted from any other user [r]
    straight away, whoever owned that token before: [api_invite] returns
    the token, files it under [u] (replacing an earlier owner), leaves all
    other codes alone, and the accept makes [u] and [r] friends. *)
Theorem invite_then_accept st u r code :
  u ≠ 0 → r ≠ u →
  let st1 := fst (api_invite u code st) in
  let st2 := fst (api_accept r code st1) in
  snd (api_invite u code st) = code
  ∧ INVITES st1 !! code = Some u
  ∧ (∀ c, c ≠ code → INVITES st1 !! c = INVITES st !! c)
  ∧ snd (api_accept r code st1) = accepted
  ∧ r ∈ friends_of st2 u
  ∧ u ∈ friends_of st2 r.
Proof.
  intros H0 Hne. cbv zeta.
  assert (Hc : INVITES (fst (api_invite u code st)) !! code = Some u)
    by (simpl; apply lookup_insert_eq).
  split; [done|]. split; [done|]. split.
  { intros c Hcne. simpl. by rewrite lookup_insert_ne. }
  destruct (api_accept_cases r code (fst (api_invite u code st)))
    as [[_ Hrej]|(o & Hc' & _ & _ & ->)].
  { rewrite Hc in Hrej. destruct Hrej as [?|[?|?]]; congruence. }
  assert (o = u) as -> by congruence. simpl.
  split; [done|]. rewrite !elem_of_friends_add_friend. tauto.
Qed.

(** X7. Let [u] (not 0) have no friends. After [u] mints a code, another
    user [r] accepts it and [r] reports a position at clock reading [now],
    the friends' positions of [u] are exactly one record: that of [r],
    with the reported coordinates and liveness, stamped [now]. *)
Theorem invite_accept_report_query st u code m now usr loc :
  u ≠ 0 → user_id usr ≠ u → friends_of st u = [] →
  from_user m = Some usr → location m = Some loc →
  api_friends_locations u
    (exec [OpInvite u code; OpAccept (user_id usr) code; OpLocation m now] st)
  = [friend_record (user_id usr) (stored_loc loc now)].
Proof.
  intros H0 Hne Hnil Hu Hl. set (r := user_id usr) in *.
  change (exec _ st) with
    (apply_op (OpLocation m now)
       (fst (api_accept r code (fst (api_invite u code st))))).
  assert (Hc : INVITES (fst (api_invite u code st)) !! code = Some u)
    by (simpl; apply lookup_insert_eq).
  destruct (api_accept_cases r code (fst (api_invite u code st)))
    as [[_ Hrej]|(o & Hc' & _ & _ & ->)].
  { rewrite Hc in Hrej. destruct Hrej as [?|[?|?]]; congruence. }
  assert (o = u) as -> by congruence. simpl fst.
  set (st2 := add_friend u r (fst (api_invite u code st))).
  assert (Hfr : friends_of st2 u = [r]).
  { apply NoDup_only_elem.
    - apply NoDup_friends_add_friend_at.
      change (NoDup (friends_of st u)). rewrite Hnil. constructor.
    - intros y. unfold st2. rewrite elem_of_friends_add_friend.
      change (friends_of (fst (api_invite u code st)) u) with (friends_of st u).
      rewrite Hnil, elem_of_nil. split; [|tauto].
      intros [[]|[[_ ->]|[-> _]]]; done. }
  simpl. rewrite (got_location_Some _ _ _ _ _ Hu Hl). simpl.
  rewrite api_friends_locations_omap.
  change (friends_of _ u) with (friends_of st2 u). rewrite Hfr. simpl.
  fold r. by rewrite lookup_insert_eq.
Qed.

End Runs.

Section Profiles.
Context `{PS : PySet}.

(** *** Profiles *)

Lemma start_Some m st u :
  from_user m = Some u →
  start m st = Some (with_USERS (<[user_id u := profile_of u]> (USERS st)) st).
Proof. intros Hu. unfold start. by rewrite Hu. Qed.

(** X8. [/start] from a sender stores the sender's profile, replacing any
    earlier one: [api_me] then answers with it, the answers for all other
    identifiers are what they were, repeating the same [/start] changes
    nothing, and [LOCATIONS], [FRIENDS] and [INVITES] are untouched. *)
Theorem start_upserts m st usr :
  from_user m = Some usr →
  ∃ st', start m st = Some st'
    ∧ api_me (user_id usr) st' = profile_of usr
    ∧ (∀ v, v ≠ user_id usr → api_me v st' = api_me v st)
    ∧ start m st' = Some st'
    ∧ LOCATIONS st' = LOCATIONS st
    ∧ FRIENDS st' = FRIENDS st
    ∧ INVITES st' = INVITES st.
Proof.
  intros Hu. eexists. split; [by apply start_Some|].
  split; [|split; [|split]].
  - unfold api_me. simpl. by rewrite lookup_insert_eq.
  - intros v Hv. unfold api_me. simpl. by rewrite lookup_insert_ne.
  - rewrite (start_Some _ _ _ Hu). unfold with_USERS. simpl.
    by rewrite insert_insert_eq.
  - done.
Qed.

(** X9. Between a [/start] and a location report of the same user, the
    profile of the [/start] is the one that stays, in either order: the
    report only fills in a missing profile, [/start] always overwrites. *)
Theorem start_profile_wins ms ml now st us ul loc :
  from_user ms = Some us → from_user ml = Some ul → location ml = Some loc →
  user_id us = user_id ul →
  USERS (exec [OpStart ms; OpLocation ml now] st) !! user_id us = Some (profile_of us)
  ∧ USERS (exec [OpLocation ml now; OpStart ms] st) !! user_id us = Some (profile_of us).
Proof.
  intros Hs Hl Hloc Hid. split.
  - change (exec _ st) with (apply_op (OpLocation ml now) (apply_op (OpStart ms) st)).
    simpl. rewrite (start_Some _ _ _ Hs). simpl.
    rewrite (got_location_Some _ _ _ _ _ Hl Hloc). simpl.
    rewrite setdefault_profile_lookup, <- Hid.
    rewrite decide_True by done. by rewrite lookup_insert_eq.
  - change (exec _ st) with (apply_op (OpStart ms) (apply_op (OpLocation ml now) st)).
    simpl. rewrite (got_location_Some _ _ _ _ _ Hl Hloc). simpl.
    rewrite (start_Some _ _ _ Hs). simpl. by rewrite lookup_insert_eq.
Qed.

Lemma str_or_nonempty s d : d ≠ ""%string → str_or s d ≠ ""%string.
Proof. intros Hd. unfold str_or. by case_decide. Qed.

Definition names_nonempty (st : State) : Prop :=
  ∀ u p, USERS st !! u = Some p → p_name p ≠ ""%string.

Lemma names_nonempty_step o st : names_nonempty st → names_nonempty (apply_op o st).
Proof.
  intros Hst. destruct o as [m|m now|u code|u code]; simpl.
  - unfold start. destruct (from_user m) as [usr|]; simpl; [|done].
    intros v p. simpl. rewrite lookup_insert. case_decide.
    + intros [= <-]. by apply str_or_nonempty.
    + apply Hst.
  - unfold got_location. destruct (location m) as [loc|]; simpl; [|done].
    destruct (from_user m) as [usr|]; simpl; [|done].
    intros v p. simpl. rewrite setdefault_profile_lookup. case_decide.
    + destruct (USERS st !! user_id usr) as [q|] eqn:Hq; simpl; intros [= <-].
      * by apply (Hst _ _ Hq).
      * by apply str_or_nonempty.
    + apply Hst.
  - done.
  - by destruct (api_accept_cases u code st) as [[-> _]|(owner & _ & _ & _ & ->)].
Qed.

(** X10. In a state the server can reach no stored profile has an empty
    name (an empty [full_name] is stored as ["User"]), so the name
    [api_me] answers with is never empty. *)
Theorem names_never_empty st :
  reachable st →
  ∀ u, p_name (api_me u st) ≠ ""%string
       ∧ ∀ p, USERS st !! u = Some p → p_name p ≠ ""%string.
Proof.
  intros Hr. assert (Hn : names_nonempty st).
  { induction Hr as [|o st _ IH]; [|by apply names_nonempty_step].
    intros u p. simpl. by rewrite lookup_empty. }
  intros u. split; [|apply Hn].
  unfold api_me. destruct (USERS st !! u) as [p|] eqn:Hp; simpl; [|done].
  by apply (Hn _ _ Hp).
Qed.

(** X11. In a state the server can reach, every user who has a stored
    position has a stored profile. *)
Theorem located_users_have_profiles st :
  reachable st → ∀ u, is_Some (LOCATIONS st !! u) → is_Some (USERS st !! u).
Proof.
  induction 1 as [|o st _ IH].
  - intros u [p Hp]. simpl in Hp. by rewrite lookup_empty in Hp.
  - destruct o as [m|m now|u code|u code]; simpl.
    + unfold start. destruct (from_user m) as [usr|]; simpl; [|done].
      intros v Hv. simpl in *. rewrite lookup_insert. case_decide; [done|]. by apply IH.
    + unfold got_location. destruct (location m) as [loc|]; simpl; [|done].
      destruct (from_user m) as [usr|]; simpl; [|done].
      intros v. simpl. rewrite setdefault_profile_lookup, lookup_insert.
      case_decide; [done|]. apply IH.
    + done.
    + by destruct (api_accept_cases u code st) as [[-> _]|(owner & _ & _ & _ & ->)].
Qed.

End Profiles.

Section Provenance.
Context `{PS : PySet}.

(** *** The two friend endpoints agree *)

Lemma friend_record_ids (L : gmap Z Loc) (ids : list Z) :
  r_user_id <$> omap (λ fid, friend_record fid <$> L !! fid) ids
  = filter (λ f, is_Some (L !! f)) ids.
Proof.
  induction ids as [|fid ids IH]; [done|].
  destruct (L !! fid) as [loc|] eqn:Hl.
  - rewrite filter_cons_True by (rewrite Hl; eauto).
    csimpl. rewrite Hl. csimpl. by rewrite IH.
  - rewrite filter_cons_False by (rewrite Hl; by intros [? ?]).
    csimpl. rewrite Hl. csimpl. exact IH.
Qed.

(** X12. The identifiers in the answer of [api_friends_locations], once
    sorted, are the answer of [api_friends] restricted to the friends that
    have a stored position. *)
Theorem locations_ids_agree_with_friends st u :
  merge_sort Z.le (r_user_id <$> api_friends_locations u st)
  = filter (λ f, is_Some (LOCATIONS st !! f)) (api_friends u st).
Proof.
  rewrite api_friends_locations_omap, friend_record_ids. unfold api_friends.
  apply (StronglySorted_unique Z.le).
  - apply StronglySorted_merge_sort; apply _.
  - apply StronglySorted_le_filter. apply StronglySorted_merge_sort; apply _.
  - by rewrite !merge_sort_Permutation.
Qed.

Lemma friends_locations_NoDup st u :
  reachable st → NoDup (r_user_id <$> api_friends_locations u st).
Proof.
  intros Hr. rewrite api_friends_locations_omap.
  apply NoDup_omap_friend_record. by apply reachable_NoDup_friends.
Qed.

(** X16. When a friend of [a] reports a position, the next answer of
    [api_friends_locations] for [a] holds exactly one record for that
    friend, and it carries the new report, stamped with the clock reading
    of its receipt. *)
Theorem friend_report_visible st a m now usr loc :
  reachable st →
  from_user m = Some usr → location m = Some loc →
  user_id usr ∈ friends_of st a →
  filter (λ r, r_user_id r = user_id usr)
    (api_friends_locations a (apply_op (OpLocation m now) st))
  = [friend_record (user_id usr) (stored_loc loc now)].
Proof.
  intros Hr Hu Hl Hf.
  assert (Hr' : reachable (apply_op (OpLocation m now) st)) by by constructor.
  apply (filter_key_NoDup r_user_id _ (friend_record (user_id usr) (stored_loc loc now))).
  - by apply friends_locations_NoDup.
  - apply elem_of_api_friends_locations.
    exists (user_id usr), (stored_loc loc now). split; [|split; [|done]].
    + simpl. rewrite (got_location_Some _ _ _ _ _ Hu Hl). exact Hf.
    + simpl. rewrite (got_location_Some _ _ _ _ _ Hu Hl). simpl.
      apply lookup_insert_eq.
Qed.

(** *** No history *)

(** X15. Two reports of one user leave [LOCATIONS] as the second report
    alone would: nothing of the first is kept. *)
Theorem report_replaces_previous m1 m2 t1 t2 st u1 u2 l1 l2 :
  from_user m1 = Some u1 → location m1 = Some l1 →
  from_user m2 = Some u2 → location m2 = Some l2 →
  user_id u1 = user_id u2 →
  LOCATIONS (exec [OpLocation m1 t1; OpLocation m2 t2] st)
  = LOCATIONS (exec [OpLocation m2 t2] st).
Proof.
  intros Hu1 Hl1 Hu2 Hl2 Hid.
  change (exec [OpLocation m1 t1; OpLocation m2 t2] st)
    with (apply_op (OpLocation m2 t2) (apply_op (OpLocation m1 t1) st)).
  change (exec [OpLocation m2 t2] st) with (apply_op (OpLocation m2 t2) st).
  simpl. rewrite (got_location_Some _ _ _ _ _ Hu1 Hl1). simpl.
  rewrite !(got_location_Some _ _ _ _ _ Hu2 Hl2). simpl.
  rewrite Hid. apply insert_insert_eq.
Qed.

(** *** Where stored data comes from *)

(** X13. Whatever the run, a position stored for [u] is one that [u]
    reported: its coordinates and liveness are those of a location message
    sent by [u] in the run, and its stamp is the clock reading taken when
    that message was received. *)
Theorem stored_positions_were_reported ops u p :
  LOCATIONS (exec ops init) !! u = Some p →
  ∃ m usr loc now,
    OpLocation m now ∈ ops
    ∧ from_user m = Some usr ∧ user_id usr = u
    ∧ location m = Some loc
    ∧ p = stored_loc loc now.
Proof.
  revert u p. induction ops as [|o ops IH] using rev_ind; intros u p.
  { simpl. by rewrite lookup_empty. }
  rewrite exec_snoc.
  assert (Hold : LOCATIONS (exec ops init) !! u = Some p →
                 ∃ m usr loc now, OpLocation m now ∈ ops ++ [o]
                   ∧ from_user m = Some usr ∧ user_id usr = u
                   ∧ location m = Some loc ∧ p = stored_loc loc now).
  { intros Hp. destruct (IH u p Hp) as (m & usr & loc & now & Hin & ?).
    exists m, usr, loc, now. split; [|done]. apply elem_of_app. by left. }
  destruct o as [m|m now|v code|v code]; simpl.
  - unfold start. by destruct (from_user m).
  - destruct (location m) as [loc|] eqn:Hl;
      [|by unfold got_location; rewrite Hl].
    destruct (from_user m) as [usr|] eqn:Hu;
      [|by unfold got_location; rewrite Hl, Hu].
    rewrite (got_location_Some _ _ _ _ _ Hu Hl). simpl.
    rewrite lookup_insert. case_decide as Hv; [|done].
    intros [= <-]. exists m, usr, loc, now.
    split; [|done]. apply elem_of_app. right. apply list_elem_of_here.
  - done.
  - by destruct (api_accept_cases v code (exec ops init))
      as [[-> _]|(owner & _ & _ & _ & ->)].
Qed.

Lemma stored_invites_were_minted ops c o :
  INVITES (exec ops init) !! c = Some o → OpInvite o c ∈ ops.
Proof.
  revert c o. induction ops as [|op ops IH] using rev_ind; intros c o.
  { simpl. by rewrite lookup_empty. }
  rewrite exec_snoc, elem_of_app.
  destruct op as [m|m now|v code|v code]; simpl.
  - unfold start. destruct (from_user m); simpl; intros; left; by apply IH.
  - unfold got_location. destruct (location m), (from_user m); simpl;
      intros; left; by apply IH.
  - rewrite lookup_insert. case_decide as Hc.
    + intros [= <-]. subst c. right. apply list_elem_of_here.
    + intros. left. by apply IH.
  - destruct (api_accept_cases v code (exec ops init))
      as [[-> _]|(owner & _ & _ & _ & ->)]; simpl; intros; left; by apply IH.
Qed.

(** X14. Whatever the run, two users are friends only if one of them
    minted a code in the run and the other redeemed that code. *)
Theorem friends_redeemed_an_invite ops a b :
  b ∈ friends_of (exec ops init) a →
  ∃ code, (OpInvite a code ∈ ops ∧ OpAccept b code ∈ ops)
          ∨ (OpInvite b code ∈ ops ∧ OpAccept a code ∈ ops).
Proof.
  revert a b. induction ops as [|op ops IH] using rev_ind; intros a b.
  { simpl. rewrite friends_of_init. by intros ?%elem_of_nil. }
  rewrite exec_snoc.
  assert (Hold : b ∈ friends_of (exec ops init) a →
                 ∃ code, (OpInvite a code ∈ ops ++ [op] ∧ OpAccept b code ∈ ops ++ [op])
                       ∨ (OpInvite b code ∈ ops ++ [op] ∧ OpAccept a code ∈ ops ++ [op])).
  { intros Hb. destruct (IH a b Hb) as (code & [[? ?]|[? ?]]); exists code;
      [left|right]; split; apply elem_of_app; by left. }
  destruct op as [m|m now|v code|v code]; simpl.
  - unfold start. by destruct (from_user m).
  - unfold got_location. by destruct (location m), (from_user m).
  - done.
  - destruct (api_accept_cases v code (exec ops init))
      as [[-> _]|(owner & Hc & _ & _ & ->)]; [done|]. simpl.
    rewrite elem_of_friends_add_friend. intros [Hb|[[-> ->]|[-> ->]]]; [by apply Hold| |].
    + exists code. left. split; apply elem_of_app.
      * left. by apply stored_invites_were_minted.
      * right. apply list_elem_of_here.
    + exists code. right. split; apply elem_of_app.
      * left. by apply stored_invites_were_minted.
      * right. apply list_elem_of_here.
Qed.

End Provenance.

(** ** Concrete runs for the further properties *)

(** A [/start] message from [uid] whose sender is called [name]. *)
Definition hello (uid : Z) (name : string) : Message :=
  {| from_user := Some {| user_id := uid; full_name := name; username := Some "bob"%string |};
     location := None;
     date := 0 |}.

(** User 100 has minted ["XYZ"]; nothing else has happened. *)
Definition st_invited : State (PS := small_table) :=
  fst (api_invite 100 "XYZ" init).

Lemma reachable_invited : reachable st_invited.
Proof. exact (reachable_step (OpInvite 100 "XYZ") init reachable_init). Qed.

Lemma accept_makes_friends_witness :
  snd (api_accept 200 "XYZ" st_invited) = accepted
  ∧ 200 ∈ friends_of (fst (api_accept 200 "XYZ" st_invited)) 100
  ∧ 100 ∈ friends_of (fst (api_accept 200 "XYZ" st_invited)) 200.
Proof.
  destruct (accept_makes_friends st_invited "XYZ" 200 100) as (H1 & H2 & H3 & _).
  - vm_compute. reflexivity.
  - discriminate.
  - discriminate.
  - exact (conj H1 (conj H2 H3)).
Defined.

Lemma accept_twice_same_friends_witness :
  api_friends 100 (fst (api_accept 200 "XYZ" (fst (api_accept 200 "XYZ" st_invited))))
  = api_friends 100 (fst (api_accept 200 "XYZ" st_invited)).
Proof.
  refine (proj2 (accept_twice_same_friends st_invited "XYZ" 200 100 reachable_invited _)).
  vm_compute. reflexivity.
Defined.

Lemma api_friends_strictly_sorted_witness :
  StronglySorted Z.lt (api_friends 100 st_two_friends)
  ∧ ∀ x, x ∈ api_friends 100 st_two_friends ↔ x ∈ friends_of st_two_friends 100.
Proof. exact (api_friends_strictly_sorted st_two_friends 100 reachable_two_friends). Defined.

Lemma no_friends_empty_answers_witness :
  api_friends 300 st_two_friends = [] ∧ api_friends_locations 300 st_two_friends = [].
Proof.
  refine (no_friends_empty_answers st_two_friends 300 _).
  vm_compute. reflexivity.
Defined.

Lemma invite_then_accept_witness :
  snd (api_accept (PS := small_table) 200 "XYZ" (fst (api_invite 100 "XYZ" init))) = accepted
  ∧ 200 ∈ friends_of
            (fst (api_accept (PS := small_table) 200 "XYZ" (fst (api_invite 100 "XYZ" init))))
            100.
Proof.
  destruct (invite_then_accept (PS := small_table) init 100 200 "XYZ")
    as (_ & _ & _ & Hacc & Hfr & _).
  - discriminate.
  - discriminate.
  - exact (conj Hacc Hfr).
Defined.

Lemma invite_accept_report_query_witness :
  api_friends_locations 100
    (exec (PS := small_table)
       [OpInvite 100 "XYZ"; OpAccept 200 "XYZ";
        OpLocation (report 200 10 20 (Some 60)) 1234] init)
  = [ {| r_user_id := 200; r_lat := 10; r_lon := 20;
         r_updated_at := 1234; r_is_live := true |} ].
Proof.
  refine (invite_accept_report_query (PS := small_table) init 100 "XYZ"
            (report 200 10 20 (Some 60)) 1234 (sender 200)
            {| latitude := 10; longitude := 20; live_period := Some 60 |}
            _ _ _ eq_refl eq_refl).
  - discriminate.
  - discriminate.
  - vm_compute. reflexivity.
Defined.

Lemma start_upserts_witness :
  ∃ st', start (hello 8 "") st_two_friends = Some st'
    ∧ api_me 8 st' = {| p_id := 8; p_name := "User"; p_username := Some "bob"%string |}
    ∧ api_me 1 st' = api_me 1 st_two_friends.
Proof.
  destruct (start_upserts (hello 8 "") st_two_friends
              {| user_id := 8; full_name := ""; username := Some "bob"%string |} eq_refl)
    as (st' & Hs & Hme & Hother & _).
  exists st'. split; [exact Hs|]. split; [exact Hme|].
  apply Hother. discriminate.
Defined.

Lemma start_profile_wins_witness :
  USERS (exec (PS := small_table)
           [OpStart (hello 7 "Bob"); OpLocation (report 7 1 2 None) 50] init) !! 7
  = Some {| p_id := 7; p_name := "Bob"; p_username := Some "bob"%string |}
  ∧ USERS (exec (PS := small_table)
             [OpLocation (report 7 1 2 None) 50; OpStart (hello 7 "Bob")] init) !! 7
    = Some {| p_id := 7; p_name := "Bob"; p_username := Some "bob"%string |}.
Proof.
  exact (start_profile_wins (PS := small_table) (hello 7 "Bob") (report 7 1 2 None) 50 init
           {| user_id := 7; full_name := "Bob"; username := Some "bob"%string |}
           (sender 7)
           {| latitude := 1; longitude := 2; live_period := None |}
           eq_refl eq_refl eq_refl eq_refl).
Defined.

Lemma names_never_empty_witness :
  reachable st_two_friends ∧ p_name (api_me 8 st_two_friends) ≠ ""%string.
Proof.
  split; [exact reachable_two_friends|].
  exact (proj1 (names_never_empty st_two_friends reachable_two_friends 8)).
Defined.

Lemma located_users_have_profiles_witness :
  is_Some (USERS st_two_friends !! 8).
Proof.
  refine (located_users_have_profiles st_two_friends reachable_two_friends 8 _).
  eexists. vm_compute. reflexivity.
Defined.

Lemma friend_report_visible_witness :
  filter (λ r, r_user_id r = 8)
    (api_friends_locations 100
       (apply_op (OpLocation (report 8 50 60 None) 2000) st_two_friends))
  = [ {| r_user_id := 8; r_lat := 50; r_lon := 60;
         r_updated_at := 2000; r_is_live := false |} ].
Proof.
  refine (friend_report_visible st_two_friends 100 (report 8 50 60 None) 2000 (sender 8)
            {| latitude := 50; longitude := 60; live_period := None |}
            reachable_two_friends eq_refl eq_refl _).
  vm_compute. apply list_elem_of_here.
Defined.

Lemma report_replaces_previous_witness :
  LOCATIONS (exec (PS := small_table)
               [OpLocation (report 7 1 1 None) 1000;
                OpLocation (report 7 2 2 (Some 60)) 1005] init)
  = LOCATIONS (exec (PS := small_table)
                 [OpLocation (report 7 2 2 (Some 60)) 1005] init).
Proof.
  exact (report_replaces_previous (PS := small_table)
           (report 7 1 1 None) (report 7 2 2 (Some 60)) 1000 1005 init
           (sender 7) (sender 7)
           {| latitude := 1; longitude := 1; live_period := None |}
           {| latitude := 2; longitude := 2; live_period := Some 60 |}
           eq_refl eq_refl eq_refl eq_refl eq_refl).
Defined.

Lemma stored_positions_were_reported_witness :
  ∃ m usr loc now,
    OpLocation m now ∈ two_friends
    ∧ from_user m = Some usr ∧ user_id usr = 8
    ∧ location m = Some loc
    ∧ {| lat := 30; lon := 40; updated_at := 1001; is_live := false |}
      = stored_loc loc now.
Proof.
  refine (stored_positions_were_reported (PS := small_table) two_friends 8
            {| lat := 30; lon := 40; updated_at := 1001; is_live := false |} _).
  vm_compute. reflexivity.
Defined.

Lemma friends_redeemed_an_invite_witness :
  ∃ code, (OpInvite 100 code ∈ two_friends ∧ OpAccept 8 code ∈ two_friends)
          ∨ (OpInvite 8 code ∈ two_friends ∧ OpAccept 100 code ∈ two_friends).
Proof.
  refine (friends_redeemed_an_invite (PS := small_table) two_friends 100 8 _).
  vm_compute. apply list_elem_of_here.
Defined.
